(** * migrate_logger.py: the log.Print* to logger.Info migration

    A shallow embedding of [migrate_logger.py] and the properties of its
    three [re.sub] passes and of its command-line behaviour.

    Text is a list of Unicode code points, as a Python [str] is.  The
    pattern language is the fragment the script uses: literal characters
    and the word-boundary assertion [\b].  Files hold the text that
    Python's text-mode [read] returns and [write] stores. *)

From Stdlib Require Import List NArith Bool Arith Lia Ascii.
From Stdlib Require String.
Import String.StringSyntax.
Delimit Scope string_scope with string.
Import ListNotations.

(** ** Text *)

Definition text := list N.

(** A string literal as text (the literals of the script are ASCII). *)
Definition str (s : String.string) : text :=
  map N_of_ascii (String.list_ascii_of_string s).

Arguments str s%_string.

Fixpoint text_eqb (a b : text) : bool :=
  match a, b with
  | [], [] => true
  | x :: a', y :: b' => (x =? y)%N && text_eqb a' b'
  | _, _ => false
  end.

Definition in_range (lo hi c : N) : bool := (lo <=? c)%N && (c <=? hi)%N.

(** A part of [str.isalnum] beyond ASCII, for running the model: the
    letters and number signs of the Latin-1 block. *)
Definition latin1_alnum (c : N) : bool :=
  in_range 192 214 c || in_range 216 246 c || in_range 248 255 c ||
  existsb (N.eqb c) [170; 178; 179; 181; 185; 186; 188; 189; 190]%N.

Section Migration.

(** [str.isalnum] for the code points from 128 on: the Unicode database
    of the Python runtime, which the script does not contain. *)
Variable uni_alnum : N -> bool.

Definition isalnum (c : N) : bool :=
  if (c <? 128)%N
  then in_range 48 57 c || in_range 65 90 c || in_range 97 122 c
  else uni_alnum c.

(** [\w] of a [str] pattern: alphanumeric or the underscore. *)
Definition is_word (c : N) : bool := isalnum c || (c =? 95)%N.

(** Word class of the character a position looks at; the end of the
    text counts as a non-word character. *)
Definition head_word (s : text) : bool :=
  match s with
  | [] => false
  | c :: _ => is_word c
  end.

(** ** Patterns *)

Inductive item : Type :=
| Bnd : item              (* \b *)
| Lit : N -> item.        (* a literal character, such as l or \. *)

Definition pattern := list item.

(** [r'\b<tok>\b'] for a literal [tok]. *)
Definition word_pat (tok : text) : pattern := Bnd :: map Lit tok ++ [Bnd].

Definition log_Printf : text := str "log.Printf".
Definition log_Println : text := str "log.Println".
Definition log_Print : text := str "log.Print".
Definition logger_Info : text := str "logger.Info".

Definition pat_Printf : pattern := word_pat log_Printf.    (* r'\blog\.Printf\b' *)
Definition pat_Println : pattern := word_pat log_Println.  (* r'\blog\.Println\b' *)
Definition pat_Print : pattern := word_pat log_Print.      (* r'\blog\.Print\b' *)

(** Matching a pattern at the current position.  [prev] is the word class
    of the character before the position ([false] at the start of the
    text), [s] the text from the position on.  The result is the number
    of characters matched. *)
Fixpoint match_here (p : pattern) (prev : bool) (s : text) : option nat :=
  match p with
  | [] => Some O
  | Bnd :: p' =>
      if xorb prev (head_word s) then match_here p' prev s else None
  | Lit c :: p' =>
      match s with
      | [] => None
      | d :: s' =>
          if (c =? d)%N
          then option_map S (match_here p' (is_word d) s')
          else None
      end
  end.

(** [re.sub(p, repl, s)] with a replacement free of backslashes: the
    text is scanned from left to right, each match is replaced and the
    scan goes on behind it; a character no match starts at is copied.
    [skip] counts the characters of the current match still to pass. *)
Fixpoint sub_from (p : pattern) (repl : text) (prev : bool) (skip : nat)
                  (s : text) : text :=
  match s with
  | [] =>
      match skip, match_here p prev [] with
      | O, Some _ => repl
      | _, _ => []
      end
  | c :: r =>
      match skip with
      | S k => sub_from p repl (is_word c) k r
      | O =>
          match match_here p prev s with
          | Some (S k) => repl ++ sub_from p repl (is_word c) k r
          | Some O => repl ++ c :: sub_from p repl (is_word c) O r
          | None => c :: sub_from p repl (is_word c) O r
          end
      end
  end.

Definition re_sub (p : pattern) (repl s : text) : text :=
  sub_from p repl false O s.

(** The three substitutions of the script, in its order. *)
Definition migrate (content : text) : text :=
  let new_content := re_sub pat_Printf logger_Info content in
  let new_content := re_sub pat_Println logger_Info new_content in
  re_sub pat_Print logger_Info new_content.

(** The passes at a position inside a text, behind a character of word
    class [prev]. *)
Definition migrate_from (prev : bool) (s : text) : text :=
  sub_from pat_Print logger_Info prev O
    (sub_from pat_Println logger_Info prev O
       (sub_from pat_Printf logger_Info prev O s)).

(** ** The script *)

(** The file system maps a path, as the string given, to what it names.
    Outside this model: two strings that name one file, bytes that do
    not decode and the translation of line ends on reading, a write or
    a [print] that fails part way. *)

Inductive node : Type :=
| Dir : node
| File : bool -> bool -> text -> node.   (* readable, writable, content *)

Definition fsys := text -> option node.

Definition set_content (fs : fsys) (p : text) (n : node) : fsys :=
  fun q => if text_eqb q p then Some n else fs q.

(** The calls the script makes on the file system. *)
Inductive call : Type :=
| Exists : text -> call              (* os.path.exists(p) *)
| OpenRead : text -> call            (* open(p, 'r') *)
| Read : text -> call                (* f.read() *)
| OpenWrite : text -> call           (* open(p, 'w') *)
| Write : text -> text -> call.      (* f.write(c) *)

Inductive exn : Type :=
| FileNotFoundError | IsADirectoryError | PermissionError.

(** What ends a run early: [sys.exit(code)] or an exception nobody
    catches. *)
Inductive halt : Type :=
| SystemExit : N -> halt
| Raised : exn -> halt.

Record world : Type := World {
  fs : fsys;
  stdout : list text;      (* the lines printed, oldest first *)
  calls : list call        (* the file-system calls, oldest first *)
}.

Definition M (A : Type) : Type := world -> (A + halt) * world.

Definition ret {A} (a : A) : M A := fun w => (inl a, w).

Definition bind {A B} (m : M A) (k : A -> M B) : M B :=
  fun w =>
    match m w with
    | (inl a, w') => k a w'
    | (inr h, w') => (inr h, w')
    end.

Notation "x <- m ;; k" := (bind m (fun x => k))
  (at level 61, m at next level, right associativity).
Notation "m ;; k" := (bind m (fun _ => k))
  (at level 61, right associativity).

Definition print (line : text) : M unit :=
  fun w => (inl tt, World (fs w) (stdout w ++ [line]) (calls w)).

Definition sys_exit {A} (code : N) : M A :=
  fun w => (inr (SystemExit code), w).

Definition raise {A} (e : exn) : M A := fun w => (inr (Raised e), w).

Definition log (c : call) : M unit :=
  fun w => (inl tt, World (fs w) (stdout w) (calls w ++ [c])).

Definition lookup (p : text) : M (option node) := fun w => (inl (fs w p), w).

Definition store (p : text) (n : node) : M unit :=
  fun w => (inl tt, World (set_content (fs w) p n) (stdout w) (calls w)).

Definition when (b : bool) (m : M unit) : M unit := if b then m else ret tt.

Definition path_exists (p : text) : M bool :=
  log (Exists p) ;;
  n <- lookup p ;;
  ret (match n with Some _ => true | None => false end).

(** [with open(p, 'r') as f: content = f.read()] *)
Definition read_file (p : text) : M text :=
  log (OpenRead p) ;;
  n <- lookup p ;;
  match n with
  | None => raise FileNotFoundError
  | Some Dir => raise IsADirectoryError
  | Some (File false _ _) => raise PermissionError
  | Some (File true _ c) => log (Read p) ;; ret c
  end.

(** [with open(p, 'w') as f: f.write(c)]: opening truncates the file (or
    creates it), then the text is written. *)
Definition write_file (p c : text) : M unit :=
  log (OpenWrite p) ;;
  n <- lookup p ;;
  match n with
  | Some Dir => raise IsADirectoryError
  | Some (File _ false _) => raise PermissionError
  | Some (File r true _) =>
      store p (File r true []) ;; log (Write p c) ;; store p (File r true c)
  | None =>
      store p (File true true []) ;; log (Write p c) ;;
      store p (File true true c)
  end.

Definition usage : text := str "Usage: python3 migrate_logger.py <file_path>".

Definition main (argv : list text) : M unit :=
  when (length argv <? 2)
       (print usage ;; sys_exit 1) ;;
  let file_path := nth 1 argv [] in
  found <- path_exists file_path ;;
  when (negb found)
       (print (str "File " ++ file_path ++ str " not found") ;; sys_exit 1) ;;
  content <- read_file file_path ;;
  let new_content := migrate content in
  write_file file_path new_content ;;
  print (str "Processed " ++ file_path).

(** The exit status of the process: 0 when the script runs to its end,
    the argument of [sys.exit], 1 after an uncaught exception. *)
Definition exit_status (r : unit + halt) : N :=
  match r with
  | inl _ => 0
  | inr (SystemExit code) => code
  | inr (Raised _) => 1
  end.

Definition run (argv : list text) (w : world) : N * world :=
  let (r, w') := main argv w in (exit_status r, w').

(** ** Vocabulary of the properties *)

(** Word class of the last character of [s], [prev] when [s] is empty. *)
Definition after (prev : bool) (s : text) : bool :=
  fold_left (fun _ c => is_word c) s prev.

Definition last_word (s : text) : bool := after false s.

Definition targets : list text := [log_Printf; log_Println; log_Print].

(** [tok] stands at position [i] of [s] as a token of its own: no word
    character right before it, none right behind it. *)
Definition standalone_at (tok s : text) (i : nat) : Prop :=
  exists pre post,
    s = pre ++ tok ++ post /\ length pre = i /\
    last_word pre = false /\ head_word post = false.

(** The identifier characters of the glossary: letters, digits, dots and
    underscores. *)
Definition is_ident_char (c : N) : bool := is_word c || (c =? 46)%N.

Definition head_ident (s : text) : bool :=
  match s with
  | [] => false
  | c :: _ => is_ident_char c
  end.

Definition last_ident (s : text) : bool := head_ident (rev s).

(** [tok] stands at position [i] of [s] as a whole token of the
    glossary: no identifier character, the dot among them, right before
    it or right behind it. *)
Definition whole_token_at (tok s : text) (i : nat) : Prop :=
  exists pre post,
    s = pre ++ tok ++ post /\ length pre = i /\
    last_ident pre = false /\ head_ident post = false.

(** The path names a file that can be read. *)
Definition readable_file (n : option node) : bool :=
  match n with
  | Some (File true _ _) => true
  | _ => false
  end.

(** ** Matching a word pattern, in closed form *)

Fixpoint prefixb (t s : text) : bool :=
  match t, s with
  | [], _ => true
  | _ :: _, [] => false
  | a :: t', b :: s' => (a =? b)%N && prefixb t' s'
  end.

(** [r'\b<tok>\b'] matches here. *)
Definition hit (tok : text) (prev : bool) (s : text) : bool :=
  negb prev && prefixb tok s && negb (head_word (skipn (length tok) s)).

(** A text that begins and ends with a word character. *)
Definition wordy (t : text) : bool := head_word t && last_word t.

(** Two texts agree as far as both go. *)
Fixpoint compat (a b : text) : bool :=
  match a, b with
  | x :: a', y :: b' => (x =? y)%N && compat a' b'
  | _, _ => true
  end.

(** ** Vocabulary of the proofs *)

(** The pass of the rule [tok -> repl] from a position on. *)
Definition pass (tok repl : text) (prev : bool) (s : text) : text :=
  sub_from (word_pat tok) repl prev O s.

(** No match of [r'\b<t>\b'] starts at the offsets [from], ... of [p],
    which lies behind a character of class [prev]: the character before
    the offset is a word character, or the texts differ. *)
Definition apart (t : text) (prev : bool) (from : nat) (p : text) : bool :=
  forallb (fun j => after prev (firstn j p) || negb (compat t (skipn j p)))
          (seq from (length p - from)).

(** The replacement is nowhere a part of [p]'s start or inside. *)
Definition clash_free (p r : text) : bool :=
  forallb (fun j => negb (compat (skipn j p) r)) (seq 0 (length p)).

(** No match of a target that starts before [m] reaches into [m]. *)
Definition overlap_free (t m : text) : bool :=
  forallb (fun j => negb (compat (skipn j t) m)) (seq 1 (length t - 1)).

(** The targets that match nowhere at the start of [s]. *)
Definition quiet (prev : bool) (s : text) : Prop :=
  forall t, In t targets -> hit t prev s = false.

(** [tok] occurs somewhere in [s]. *)
Fixpoint occurs (tok s : text) : bool :=
  prefixb tok s ||
  match s with
  | [] => false
  | _ :: r => occurs tok r
  end.

(** The positions of [s] at which [tok] stands alone. *)
Definition standalone_positions (tok s : text) : list nat :=
  filter (fun i => hit tok (last_word (firstn i s)) (skipn i s))
         (seq 0 (S (length s))).

(** No match of [r'\b<t>\b'] starts anywhere in [s], which lies behind a
    character of class [prev]. *)
Definition hits_free (t : text) (prev : bool) (s : text) : Prop :=
  forall pre s', s = pre ++ s' -> hit t (after prev pre) s' = false.

(** The positions of [s] at which [tok] is a whole token of the
    glossary. *)
Definition whole_token_positions (tok s : text) : list nat :=
  filter (fun i => negb (last_ident (firstn i s))
                   && prefixb tok (skipn i s)
                   && negb (head_ident (skipn (length tok) (skipn i s))))
         (seq 0 (S (length s))).

(** ** A small file system to run the script on *)

Definition sample_fs : fsys :=
  fun q =>
    if text_eqb q (str "main.go")
    then Some (File true true
                 (str "log.Printf(x); biglog.Printf(y); log.PrintfExtra(z)"))
    else if text_eqb q (str "plain.go")
    then Some (File true true (str "fmt.Println(x) // mylog.Printf2"))
    else if text_eqb q (str "pkg") then Some Dir
    else None.

Definition sample_world : world := World sample_fs [] [].

Definition script : text := str "migrate_logger.py".

(** A file system with a file that may be read and not written. *)
Definition locked_world : world :=
  World (fun q => if text_eqb q (str "vendor.go")
                  then Some (File true false (str "log.Print(x)"))
                  else None) [] [].

(** * Properties *)

(** ** Texts *)

Lemma text_eqb_refl (a : text) : text_eqb a a = true.
Proof. induction a; simpl; [|rewrite N.eqb_refl]; auto. Qed.

Lemma text_eqb_eq (a b : text) : text_eqb a b = true -> a = b.
Proof.
  revert b. induction a as [|x a IH]; intros [|y b]; simpl; try easy.
  intros H. apply andb_true_iff in H. destruct H as [E H].
  apply N.eqb_eq in E. f_equal; auto.
Qed.

Lemma after_cons prev c s : after prev (c :: s) = after (is_word c) s.
Proof. reflexivity. Qed.

Lemma after_app prev a b : after prev (a ++ b) = after (after prev a) b.
Proof. unfold after. apply fold_left_app. Qed.

Lemma after_nonempty prev q a : a <> [] -> after prev a = after q a.
Proof. destruct a; [congruence | reflexivity]. Qed.

Lemma head_word_app a b : a <> [] -> head_word (a ++ b) = head_word a.
Proof. destruct a; [congruence | reflexivity]. Qed.

Lemma wordy_nonempty t : wordy t = true -> t <> [].
Proof. destruct t; [discriminate | congruence]. Qed.

Lemma wordy_head t : wordy t = true -> head_word t = true.
Proof. unfold wordy. intros H. apply andb_true_iff in H. tauto. Qed.

Lemma wordy_after t prev : wordy t = true -> after prev t = true.
Proof.
  intros H. rewrite (after_nonempty prev false) by now apply wordy_nonempty.
  unfold wordy in H. apply andb_true_iff in H. tauto.
Qed.

Lemma prefixb_app t r : prefixb t (t ++ r) = true.
Proof. induction t as [|a t IH]; simpl; [|rewrite N.eqb_refl]; auto. Qed.

Lemma prefixb_split t s : prefixb t s = true -> s = t ++ skipn (length t) s.
Proof.
  revert s. induction t as [|a t IH]; intros [|b s]; simpl; try easy.
  intros H. apply andb_true_iff in H. destruct H as [E H].
  apply N.eqb_eq in E. subst b. f_equal. auto.
Qed.

Lemma skipn_exact (t r : text) : skipn (length t) (t ++ r) = r.
Proof. induction t; simpl; auto. Qed.

Lemma firstn_exact (t r : text) : firstn (length t) (t ++ r) = t.
Proof. induction t; simpl; f_equal; auto. Qed.

Lemma compat_app a b u v : a ++ u = b ++ v -> compat a b = true.
Proof.
  revert b. induction a as [|x a IH]; intros [|y b]; simpl; try easy.
  intros H. injection H as -> H. rewrite N.eqb_refl. eauto.
Qed.

Lemma compat_prefix a b r : prefixb a (b ++ r) = true -> compat a b = true.
Proof.
  intros H. apply prefixb_split in H. symmetry in H.
  now apply compat_app in H.
Qed.

(** ** The closed form of a word-pattern match *)

Lemma match_lits t prev s :
  match_here (map Lit t ++ [Bnd]) prev s =
  if prefixb t s && xorb (after prev t) (head_word (skipn (length t) s))
  then Some (length t) else None.
Proof.
  revert prev s. induction t as [|a t IH]; intros prev s.
  - simpl. now destruct (xorb prev (head_word s)).
  - cbn [map app match_here prefixb length skipn].
    destruct s as [|b s]; [reflexivity|].
    destruct (N.eqb_spec a b) as [->|]; [|reflexivity].
    rewrite IH, after_cons. cbn [andb].
    now destruct (prefixb t s && _).
Qed.

Lemma hit_prefix tok prev s : hit tok prev s = true -> prefixb tok s = true.
Proof.
  unfold hit. intros H. apply andb_true_iff in H. destruct H as [H _].
  apply andb_true_iff in H. tauto.
Qed.

Lemma hit_prev tok prev s : hit tok prev s = true -> prev = false.
Proof. unfold hit. destruct prev; [discriminate | reflexivity]. Qed.

Lemma hit_tail tok prev s :
  hit tok prev s = true -> head_word (skipn (length tok) s) = false.
Proof.
  unfold hit. intros H. apply andb_true_iff in H. destruct H as [_ H].
  now apply negb_true_iff in H.
Qed.

Lemma hit_intro tok r :
  head_word r = false -> hit tok false (tok ++ r) = true.
Proof.
  intros H. unfold hit. now rewrite prefixb_app, skipn_exact, H.
Qed.

Lemma hit_split tok prev s :
  hit tok prev s = true ->
  prev = false /\ s = tok ++ skipn (length tok) s /\
  head_word (skipn (length tok) s) = false.
Proof.
  intros H. split; [|split].
  - eapply hit_prev; eauto.
  - apply prefixb_split. eapply hit_prefix; eauto.
  - eapply hit_tail; eauto.
Qed.

Lemma match_word_pat tok prev s :
  wordy tok = true ->
  match_here (word_pat tok) prev s =
  if hit tok prev s then Some (length tok) else None.
Proof.
  intros W. unfold word_pat, hit. cbn [match_here app].
  rewrite match_lits, (wordy_after tok prev W).
  destruct (prefixb tok s) eqn:P.
  - apply prefixb_split in P. assert (H : head_word s = true).
    { rewrite P, head_word_app by now apply wordy_nonempty.
      now apply wordy_head. }
    rewrite H. now destruct prev, (head_word (skipn _ s)).
  - rewrite andb_false_r. simpl. now destruct (xorb prev (head_word s)).
Qed.

(** ** One pass: the equations of the scan *)

Lemma sub_from_skip p repl k :
  forall prev s, k <= length s ->
  sub_from p repl prev k s =
  sub_from p repl (after prev (firstn k s)) O (skipn k s).
Proof.
  induction k as [|k IH]; intros prev s Hk.
  - reflexivity.
  - destruct s as [|c r]; simpl in Hk; [lia|].
    cbn [sub_from firstn skipn]. rewrite after_cons. apply IH. lia.
Qed.

Section Rule.

Variables tok repl : text.
Hypothesis tok_wordy : wordy tok = true.
Hypothesis repl_wordy : wordy repl = true.

Lemma pass_nil prev : pass tok repl prev [] = [].
Proof.
  unfold pass. cbn [sub_from]. rewrite match_word_pat by assumption.
  unfold hit. destruct tok; [discriminate|].
  cbn [prefixb]. now rewrite andb_false_r.
Qed.

Lemma pass_hit prev s :
  hit tok prev s = true ->
  pass tok repl prev s = repl ++ pass tok repl true (skipn (length tok) s).
Proof.
  intros H. destruct (hit_split _ _ _ H) as (_ & E & _).
  pose proof (wordy_nonempty _ tok_wordy) as NE.
  unfold pass. destruct s as [|c r].
  { destruct tok; [congruence | discriminate]. }
  cbn [sub_from]. rewrite match_word_pat, H by assumption.
  destruct tok as [|a t] eqn:Et; [congruence|].
  cbn [length]. f_equal.
  assert (L : length t <= length r).
  { injection E as _ E. rewrite E, length_app. lia. }
  rewrite sub_from_skip by assumption. cbn [skipn]. f_equal.
  injection E as Ec E. rewrite E at 1. rewrite firstn_exact.
  subst c. rewrite <- (after_cons false). now apply wordy_after.
Qed.

Lemma pass_miss prev c r :
  hit tok prev (c :: r) = false ->
  pass tok repl prev (c :: r) = c :: pass tok repl (is_word c) r.
Proof.
  intros H. unfold pass. cbn [sub_from].
  now rewrite match_word_pat, H by assumption.
Qed.

(** A pass keeps the word class of the first character. *)
Lemma pass_head prev s : head_word (pass tok repl prev s) = head_word s.
Proof.
  destruct s as [|c r]; [now rewrite pass_nil|].
  destruct (hit tok prev (c :: r)) eqn:H.
  - rewrite pass_hit by assumption.
    rewrite head_word_app by now apply wordy_nonempty.
    destruct (hit_split _ _ _ H) as (_ & E & _). rewrite E.
    rewrite head_word_app by now apply wordy_nonempty.
    now rewrite !wordy_head.
  - now rewrite pass_miss.
Qed.

(** A text the pass leaves alone: no match starts inside [p], whatever
    follows it. *)
Lemma pass_keeps p :
  forall prev rest,
  (forall j, j < length p ->
     hit tok (after prev (firstn j p)) (skipn j p ++ rest) = false) ->
  pass tok repl prev (p ++ rest) = p ++ pass tok repl (after prev p) rest.
Proof.
  induction p as [|a p IH]; intros prev rest H; [reflexivity|].
  cbn [app]. rewrite pass_miss by (apply (H 0); simpl; lia).
  f_equal. rewrite after_cons. apply IH. intros j Hj.
  apply (H (S j)). simpl. lia.
Qed.

(** A text found at the head of the output that the replacement cannot
    be part of stood at the head of the input. *)
Lemma pass_reflects p :
  forall prev s z,
  (forall j, j < length p -> compat (skipn j p) repl = false) ->
  pass tok repl prev s = p ++ z ->
  s = p ++ skipn (length p) s /\ z = pass tok repl (after prev p) (skipn (length p) s).
Proof.
  induction p as [|a p IH]; intros prev s z C E; [now split|].
  destruct s as [|c r]; [now rewrite pass_nil in E|].
  destruct (hit tok prev (c :: r)) eqn:H.
  - rewrite pass_hit in E by assumption. symmetry in E.
    apply compat_app in E. pose proof (C 0 ltac:(simpl; lia)) as C0.
    cbn [skipn] in C0. congruence.
  - rewrite pass_miss in E by assumption. injection E as -> E.
    apply IH in E.
    + cbn [length skipn app]. rewrite after_cons. destruct E as [E1 E2].
      split; [now f_equal | assumption].
    + intros j Hj. apply (C (S j)). simpl. lia.
Qed.

(** No pass makes a match that was not there. *)
Lemma pass_no_new_hit t prev s :
  (forall j, j < length t -> compat (skipn j t) repl = false) ->
  hit t prev (pass tok repl prev s) = true -> hit t prev s = true.
Proof.
  intros C H. destruct (hit_split _ _ _ H) as (P & E & T).
  apply pass_reflects in E; [|assumption]. destruct E as [E1 E2].
  rewrite E2, pass_head in T. subst prev.
  rewrite E1. now apply hit_intro.
Qed.

End Rule.

(** ** The three targets and the replacement *)

Lemma in_targets t :
  In t targets -> t = log_Printf \/ t = log_Println \/ t = log_Print.
Proof. simpl. intuition. Qed.

Ltac each_target H :=
  apply in_targets in H; destruct H as [H | [H | H]]; subst.

Lemma target_wordy t : In t targets -> wordy t = true.
Proof. intros H. each_target H; reflexivity. Qed.

Lemma repl_wordy : wordy logger_Info = true.
Proof. reflexivity. Qed.

Lemma target_clash_free t j :
  In t targets -> j < length t -> compat (skipn j t) logger_Info = false.
Proof.
  intros H Hj. assert (C : clash_free t logger_Info = true)
    by (each_target H; vm_compute; reflexivity).
  unfold clash_free in C. rewrite forallb_forall in C.
  apply negb_true_iff, C, in_seq. lia.
Qed.

Lemma hit_blocked t prev x rest :
  prev || negb (compat t x) = true -> hit t prev (x ++ rest) = false.
Proof.
  intros H. unfold hit. destruct prev; [reflexivity|]. simpl in H.
  apply negb_true_iff in H. destruct (prefixb t (x ++ rest)) eqn:P.
  - apply compat_prefix in P. congruence.
  - reflexivity.
Qed.

Lemma apart_blocks t prev from p rest j :
  apart t prev from p = true -> from <= j < length p ->
  hit t (after prev (firstn j p)) (skipn j p ++ rest) = false.
Proof.
  intros A Hj. unfold apart in A. rewrite forallb_forall in A.
  apply hit_blocked, A, in_seq. lia.
Qed.

(** No target starts inside a target, at an offset other than 0. *)
Lemma target_apart t t' :
  In t targets -> In t' targets -> apart t false 1 t' = true.
Proof.
  intros H H'. each_target H; each_target H'; vm_compute; reflexivity.
Qed.

(** No target starts anywhere in the replacement. *)
Lemma repl_apart t prev :
  In t targets -> apart t prev 0 logger_Info = true.
Proof.
  intros H. each_target H; destruct prev; vm_compute; reflexivity.
Qed.

Lemma prefixb_same a b r : prefixb (a ++ b) (a ++ r) = prefixb b r.
Proof. induction a; simpl; [|rewrite N.eqb_refl]; auto. Qed.

(** A match is not followed by a word character. *)
Lemma hit_longer t x prev rest :
  head_word x = true -> hit t prev (t ++ x ++ rest) = false.
Proof.
  intros H. unfold hit. rewrite skipn_exact.
  destruct x; [discriminate|]. simpl in *. rewrite H.
  now rewrite andb_false_r.
Qed.

(** A longer token does not match where the shorter one stands alone. *)
Lemma hit_shorter t x rest :
  head_word x = true -> head_word rest = false ->
  hit (t ++ x) false (t ++ rest) = false.
Proof.
  intros Hx Hr. unfold hit. rewrite prefixb_same.
  destruct x as [|a x]; [discriminate|]. destruct rest as [|c rest].
  - reflexivity.
  - cbn [prefixb]. destruct (N.eqb_spec a c) as [->|]; [|reflexivity].
    simpl in Hx, Hr. congruence.
Qed.

(** Two different targets never match at the same position. *)
Lemma hit_exclusive t t' prev s :
  In t targets -> In t' targets -> t <> t' ->
  hit t' prev s = true -> hit t prev s = false.
Proof.
  intros H H' D M. destruct (hit_split _ _ _ M) as (-> & E & T).
  rewrite E. set (rest := skipn (length t') s) in *. clearbody rest.
  each_target H; each_target H'; try congruence.
  - apply hit_blocked. reflexivity.
  - apply (hit_shorter log_Print [102%N]); [reflexivity | assumption].
  - apply hit_blocked. reflexivity.
  - apply (hit_shorter log_Print [108%N; 110%N]); [reflexivity | assumption].
  - apply (hit_longer log_Print [102%N] false rest). reflexivity.
  - apply (hit_longer log_Print [108%N; 110%N] false rest). reflexivity.
Qed.

(** ** The passes of the script *)

Lemma text_len_ind (P : text -> Prop) :
  (forall s, (forall r, length r < length s -> P r) -> P s) ->
  forall s, P s.
Proof.
  intros H s. remember (length s) as n eqn:E. revert s E.
  induction n as [n IH] using lt_wf_ind. intros s ->.
  apply H. intros r Hr. now apply (IH (length r)).
Qed.

Lemma skipn_shorter (t s : text) :
  t <> [] -> s = t ++ skipn (length t) s ->
  length (skipn (length t) s) < length s.
Proof.
  intros NE E. rewrite E at 2. rewrite length_app.
  destruct t; [congruence | simpl; lia].
Qed.

Lemma rule_over_repl t prev z :
  In t targets ->
  pass t logger_Info prev (logger_Info ++ z) =
  logger_Info ++ pass t logger_Info true z.
Proof.
  intros H. rewrite pass_keeps.
  - now rewrite (wordy_after _ prev repl_wordy).
  - now apply target_wordy.
  - intros j Hj. apply apart_blocks with (from := 0).
    + now apply repl_apart.
    + lia.
Qed.

(** A pass steps over a match of another target. *)
Lemma rule_over_hit t t' prev s :
  In t targets -> In t' targets -> t <> t' ->
  hit t' prev s = true ->
  pass t logger_Info prev s =
  t' ++ pass t logger_Info true (skipn (length t') s).
Proof.
  intros H H' D M. destruct (hit_split _ _ _ M) as (P & E & T).
  rewrite E at 1. rewrite pass_keeps.
  - now rewrite (wordy_after _ prev (target_wordy _ H')).
  - now apply target_wordy.
  - intros [|j] Hj.
    + cbn [firstn skipn after fold_left]. rewrite <- E.
      now apply hit_exclusive with (t' := t').
    + subst prev. apply apart_blocks with (from := 1).
      * now apply target_apart.
      * lia.
Qed.

Lemma rule_no_new_hit t t' prev s :
  In t targets -> In t' targets ->
  hit t' prev (pass t logger_Info prev s) = true -> hit t' prev s = true.
Proof.
  intros H H'. apply pass_no_new_hit.
  - now apply target_wordy.
  - exact repl_wordy.
  - intros j Hj. now apply target_clash_free.
Qed.

Lemma rule_keeps_hit t t' prev s :
  In t targets -> In t' targets -> t <> t' ->
  hit t' prev s = true -> hit t' prev (pass t logger_Info prev s) = true.
Proof.
  intros H H' D M. rewrite (rule_over_hit _ _ _ _ H H' D M).
  destruct (hit_split _ _ _ M) as (-> & _ & T).
  apply hit_intro. rewrite pass_head; auto using target_wordy, repl_wordy.
Qed.

(** The two passes, in both orders, where the first target matches. *)
Lemma two_passes_hit t t' prev s :
  In t targets -> In t' targets -> t <> t' ->
  hit t prev s = true ->
  let rest := skipn (length t) s in
  pass t logger_Info prev (pass t' logger_Info prev s) =
    logger_Info ++ pass t logger_Info true (pass t' logger_Info true rest) /\
  pass t' logger_Info prev (pass t logger_Info prev s) =
    logger_Info ++ pass t' logger_Info true (pass t logger_Info true rest).
Proof.
  intros H H' D M rest. pose proof (target_wordy _ H) as W. split.
  - rewrite pass_hit by auto using rule_keeps_hit.
    rewrite (rule_over_hit t' t prev s) by auto.
    now rewrite skipn_exact.
  - rewrite (pass_hit t logger_Info W prev s M). now apply rule_over_repl.
Qed.

Lemma two_passes_miss t t' prev c r :
  In t targets -> In t' targets ->
  hit t prev (c :: r) = false -> hit t' prev (c :: r) = false ->
  pass t logger_Info prev (pass t' logger_Info prev (c :: r)) =
  c :: pass t logger_Info (is_word c) (pass t' logger_Info (is_word c) r).
Proof.
  intros H H' M M'. pose proof (target_wordy _ H) as W.
  pose proof (target_wordy _ H') as W'.
  destruct (hit t prev (pass t' logger_Info prev (c :: r))) eqn:N.
  - apply rule_no_new_hit in N; auto. congruence.
  - rewrite pass_miss in * by assumption. now rewrite pass_miss.
Qed.

(** Two passes commute. *)
Lemma passes_commute t t' :
  In t targets -> In t' targets ->
  forall s prev,
  pass t logger_Info prev (pass t' logger_Info prev s) =
  pass t' logger_Info prev (pass t logger_Info prev s).
Proof.
  intros H H'. destruct (list_eq_dec N.eq_dec t t') as [->|D]; [reflexivity|].
  pose proof (target_wordy _ H) as W. pose proof (target_wordy _ H') as W'.
  induction s as [s IH] using text_len_ind. intros prev.
  destruct s as [|c r]; [now rewrite !pass_nil|].
  destruct (hit t prev (c :: r)) eqn:M.
  { destruct (two_passes_hit t t' prev (c :: r) H H' D M) as [-> ->].
    f_equal. apply IH, skipn_shorter.
    - now apply wordy_nonempty.
    - now destruct (hit_split _ _ _ M) as (_ & E & _). }
  destruct (hit t' prev (c :: r)) eqn:M'.
  { destruct (two_passes_hit t' t prev (c :: r) H' H (not_eq_sym D) M')
      as [-> ->].
    f_equal. apply IH, skipn_shorter.
    - now apply wordy_nonempty.
    - now destruct (hit_split _ _ _ M') as (_ & E & _). }
  rewrite !two_passes_miss by assumption. f_equal. apply IH. simpl. lia.
Qed.

(** A pass over its own output changes nothing. *)
Lemma pass_idempotent t :
  In t targets ->
  forall s prev,
  pass t logger_Info prev (pass t logger_Info prev s) =
  pass t logger_Info prev s.
Proof.
  intros H. pose proof (target_wordy _ H) as W.
  induction s as [s IH] using text_len_ind. intros prev.
  destruct s as [|c r]; [now rewrite !pass_nil|].
  destruct (hit t prev (c :: r)) eqn:M.
  - rewrite (pass_hit t logger_Info W prev (c :: r) M).
    rewrite rule_over_repl by assumption.
    f_equal. apply IH, skipn_shorter.
    + now apply wordy_nonempty.
    + now destruct (hit_split _ _ _ M) as (_ & E & _).
  - rewrite two_passes_miss by assumption.
    rewrite (pass_miss t logger_Info W prev c r M). f_equal.
    apply IH. simpl. lia.
Qed.

(** ** The migration of a text *)

Lemma re_sub_pass t s : re_sub (word_pat t) logger_Info s = pass t logger_Info false s.
Proof. reflexivity. Qed.

Lemma migrate_passes s :
  migrate s =
  pass log_Print logger_Info false
    (pass log_Println logger_Info false (pass log_Printf logger_Info false s)).
Proof. reflexivity. Qed.

Lemma in_Printf : In log_Printf targets.
Proof. simpl; auto. Qed.

Lemma in_Println : In log_Println targets.
Proof. simpl; auto. Qed.

Lemma in_Print : In log_Print targets.
Proof. simpl; auto. Qed.

Create HintDb targets.

#[local] Hint Resolve in_Printf in_Println in_Print : targets.

(** A match is a standalone occurrence, and the other way round. *)
Lemma hit_standalone tok pre s :
  hit tok (last_word pre) s = true -> standalone_at tok (pre ++ s) (length pre).
Proof.
  intros H. destruct (hit_split _ _ _ H) as (P & E & T).
  exists pre, (skipn (length tok) s). now rewrite <- E.
Qed.

Lemma standalone_hit tok pre post :
  last_word pre = false -> head_word post = false ->
  hit tok (last_word pre) (tok ++ post) = true.
Proof. intros -> H. now apply hit_intro. Qed.

(** A pass that finds no match returns its input. *)
Lemma pass_id t :
  wordy t = true ->
  forall s prev,
  (forall pre s', s = pre ++ s' -> hit t (after prev pre) s' = false) ->
  pass t logger_Info prev s = s.
Proof.
  intros W. induction s as [|c r IH]; intros prev H.
  - now apply pass_nil.
  - rewrite pass_miss by (assumption || now apply (H [])).
    f_equal. apply IH. intros pre s' ->.
    now apply (H (c :: pre) s').
Qed.

Lemma pass_id_standalone t s :
  In t targets ->
  (forall i, ~ standalone_at t s i) -> pass t logger_Info false s = s.
Proof.
  intros H N. apply pass_id; [now apply target_wordy|].
  intros pre s' ->. destruct (hit t (after false pre) s') eqn:M; [|reflexivity].
  apply hit_standalone in M. now apply N in M.
Qed.

Lemma app_same_length (a b c d : text) :
  a ++ b = c ++ d -> length a = length c -> a = c /\ b = d.
Proof.
  revert c. induction a as [|x a IH]; intros [|y c]; simpl; try easy.
  intros E L. injection E as -> E. injection L as L.
  destruct (IH _ E L). split; congruence.
Qed.

(** The pass of the one target that stands alone in the text. *)
Lemma pass_single tok pre post :
  In tok targets ->
  last_word pre = false -> head_word post = false ->
  (forall i, standalone_at tok (pre ++ tok ++ post) i -> i = length pre) ->
  pass tok logger_Info false (pre ++ tok ++ post) = pre ++ logger_Info ++ post.
Proof.
  intros H Lp Hp U. pose proof (target_wordy _ H) as W.
  rewrite pass_keeps; [|assumption|].
  - f_equal. rewrite pass_hit by (assumption || now apply standalone_hit).
    f_equal. rewrite skipn_exact. apply pass_id; [assumption|].
    intros q s' ->. destruct (hit tok (after true q) s') eqn:M; [|reflexivity].
    assert (S : standalone_at tok ((pre ++ tok ++ q) ++ s')
                              (length (pre ++ tok ++ q))).
    { apply hit_standalone. unfold last_word.
      now rewrite !after_app, (wordy_after _ _ W). }
    rewrite <- !app_assoc in S. apply U in S. rewrite !length_app in S.
    apply wordy_nonempty in W. destruct tok; [congruence | simpl in S; lia].
  - intros j Hj.
    destruct (hit tok (after false (firstn j pre)) (skipn j pre ++ tok ++ post))
      eqn:M; [|reflexivity].
    apply hit_standalone in M. rewrite app_assoc, firstn_skipn in M.
    apply U in M. rewrite length_firstn in M. lia.
Qed.

(** A target that stands alone nowhere in the text is not touched. *)
Lemma pass_other tok t pre post :
  In tok targets -> In t targets -> t <> tok ->
  last_word pre = false -> head_word post = false ->
  (forall i, standalone_at t (pre ++ tok ++ post) i -> i = length pre) ->
  pass t logger_Info false (pre ++ tok ++ post) = pre ++ tok ++ post.
Proof.
  intros H Ht D Lp Hp U. apply pass_id_standalone; [assumption|].
  intros i S. pose proof (U _ S) as ->.
  destruct S as (pre' & post' & E & L & Lp' & Hp').
  destruct (app_same_length _ _ _ _ E (eq_sym L)) as [<- E'].
  assert (M : hit t false (tok ++ post) = true)
    by (rewrite E'; now apply hit_intro).
  apply (hit_exclusive tok t false _ H Ht (not_eq_sym D)) in M.
  now rewrite hit_intro in M.
Qed.

(** C1, as the script has it: a text with exactly one standalone
    occurrence of [log.Printf], [log.Println] or [log.Print] (the token
    [tok] between [pre] and [post], and no standalone target at any
    other position) is migrated to the same text with [logger.Info] in
    the place of that occurrence, everything before and behind it
    unchanged.  Standalone is: no letter, digit or underscore next to
    it; a dot next to it does not count. *)
Theorem migrate_single_occurrence (pre tok post : text) :
  In tok targets ->
  last_word pre = false -> head_word post = false ->
  (forall tok' i, In tok' targets ->
     standalone_at tok' (pre ++ tok ++ post) i -> i = length pre) ->
  migrate (pre ++ tok ++ post) = pre ++ logger_Info ++ post.
Proof.
  intros H Lp Hp U. rewrite migrate_passes.
  assert (Own : pass tok logger_Info false (pre ++ tok ++ post)
                = pre ++ logger_Info ++ post)
    by (apply pass_single; auto; intros i; now apply U).
  assert (Other : forall t, In t targets -> t <> tok ->
            pass t logger_Info false (pre ++ tok ++ post)
            = pre ++ tok ++ post)
    by (intros t Ht D; apply pass_other; auto; intros i; now apply U).
  apply in_targets in H. destruct H as [-> | [-> | ->]].
  - rewrite (passes_commute log_Println log_Printf) by auto with targets.
    rewrite (Other log_Println) by (auto with targets; discriminate).
    rewrite (passes_commute log_Print log_Printf) by auto with targets.
    rewrite (Other log_Print) by (auto with targets; discriminate).
    exact Own.
  - rewrite (Other log_Printf) by (auto with targets; discriminate).
    rewrite (passes_commute log_Print log_Println) by auto with targets.
    rewrite (Other log_Print) by (auto with targets; discriminate).
    exact Own.
  - rewrite (Other log_Printf) by (auto with targets; discriminate).
    rewrite (Other log_Println) by (auto with targets; discriminate).
    exact Own.
Qed.

(** C4: the three substitutions give the same text in each of their six
    orders (the first line is the order of the script). *)
Theorem migrate_order_independent (s : text) :
  let f := re_sub pat_Printf logger_Info in
  let n := re_sub pat_Println logger_Info in
  let p := re_sub pat_Print logger_Info in
  p (n (f s)) = migrate s /\
  n (p (f s)) = migrate s /\
  p (f (n s)) = migrate s /\
  f (p (n s)) = migrate s /\
  n (f (p s)) = migrate s /\
  f (n (p s)) = migrate s.
Proof.
  intros f n p. subst f n p. unfold pat_Printf, pat_Println, pat_Print.
  rewrite migrate_passes, !re_sub_pass.
  pose proof (passes_commute log_Println log_Print in_Println in_Print)
    as NP.
  pose proof (passes_commute log_Printf log_Print in_Printf in_Print)
    as FP.
  pose proof (passes_commute log_Printf log_Println in_Printf in_Println)
    as FN.
  repeat split.
  - apply NP.
  - now rewrite FN.
  - now rewrite FP, FN.
  - now rewrite FP, NP.
  - now rewrite FN, FP, NP.
Qed.

(** C5: migrating a migrated text changes nothing; [logger.Info] itself
    is passed over by each of the three rules, whatever follows it. *)
Theorem migrate_idempotent (s : text) :
  migrate (migrate s) = migrate s /\
  (forall z, re_sub pat_Printf logger_Info (logger_Info ++ z)
             = logger_Info ++ sub_from pat_Printf logger_Info true O z) /\
  (forall z, re_sub pat_Println logger_Info (logger_Info ++ z)
             = logger_Info ++ sub_from pat_Println logger_Info true O z) /\
  (forall z, re_sub pat_Print logger_Info (logger_Info ++ z)
             = logger_Info ++ sub_from pat_Print logger_Info true O z).
Proof.
  split; [|repeat split; intros z; apply rule_over_repl; auto with targets].
  rewrite !migrate_passes.
  rewrite (passes_commute log_Printf log_Print) by auto with targets.
  rewrite (passes_commute log_Printf log_Println) by auto with targets.
  rewrite (pass_idempotent log_Printf) by auto with targets.
  rewrite (passes_commute log_Println log_Print) by auto with targets.
  rewrite (pass_idempotent log_Println) by auto with targets.
  now rewrite (pass_idempotent log_Print) by auto with targets.
Qed.

Lemma migrate_no_occurrence (s : text) :
  (forall tok i, In tok targets -> ~ standalone_at tok s i) ->
  migrate s = s.
Proof.
  intros No. rewrite migrate_passes.
  assert (Id : forall t, In t targets -> pass t logger_Info false s = s)
    by (intros t Ht; apply pass_id_standalone; auto).
  now rewrite !Id by auto with targets.
Qed.

(** ** The runs of the script *)

Ltac run_script w H :=
  destruct w as [fs0 out0 calls0]; cbn [fs stdout calls] in H |- *;
  cbv [run main when bind path_exists read_file write_file log lookup store
       print sys_exit raise ret exit_status];
  repeat (progress cbn [fs stdout calls length Nat.ltb Nat.leb nth negb]
          || rewrite H).

Lemma set_content_same fsy p n : set_content fsy p n p = Some n.
Proof. unfold set_content. now rewrite text_eqb_refl. Qed.

Lemma set_content_other fsy p n q : q <> p -> set_content fsy p n q = fsy q.
Proof.
  intros D. unfold set_content. destruct (text_eqb q p) eqn:E; [|reflexivity].
  apply text_eqb_eq in E. congruence.
Qed.

Lemma main_usage argv w :
  length argv < 2 ->
  main argv w
  = (inr (SystemExit 1), World (fs w) (stdout w ++ [usage]) (calls w)).
Proof.
  intros H. destruct argv as [|prog [|p more]]; simpl in H; try lia;
    reflexivity.
Qed.

Lemma main_not_found prog p more w :
  fs w p = None ->
  main (prog :: p :: more) w
  = (inr (SystemExit 1),
     World (fs w) (stdout w ++ [str "File " ++ p ++ str " not found"])
           (calls w ++ [Exists p])).
Proof. intros H. run_script w H. reflexivity. Qed.

Lemma main_is_directory prog p more w :
  fs w p = Some Dir ->
  main (prog :: p :: more) w
  = (inr (Raised IsADirectoryError),
     World (fs w) (stdout w) ((calls w ++ [Exists p]) ++ [OpenRead p])).
Proof. intros H. run_script w H. reflexivity. Qed.

Lemma main_no_permission prog p more w wr c :
  fs w p = Some (File false wr c) ->
  main (prog :: p :: more) w
  = (inr (Raised PermissionError),
     World (fs w) (stdout w) ((calls w ++ [Exists p]) ++ [OpenRead p])).
Proof. intros H. run_script w H. reflexivity. Qed.

Lemma main_read_only prog p more w c :
  fs w p = Some (File true false c) ->
  main (prog :: p :: more) w
  = (inr (Raised PermissionError),
     World (fs w) (stdout w)
           ((((calls w ++ [Exists p]) ++ [OpenRead p]) ++ [Read p])
              ++ [OpenWrite p])).
Proof. intros H. run_script w H. reflexivity. Qed.

Lemma main_success prog p more w c :
  fs w p = Some (File true true c) ->
  main (prog :: p :: more) w
  = (inl tt,
     World (set_content (set_content (fs w) p (File true true []))
                        p (File true true (migrate c)))
           (stdout w ++ [str "Processed " ++ p])
           (((((calls w ++ [Exists p]) ++ [OpenRead p]) ++ [Read p])
               ++ [OpenWrite p]) ++ [Write p (migrate c)])).
Proof. intros H. run_script w H. reflexivity. Qed.

(** C6, as the script has it: a text without any standalone occurrence
    of the three targets (none that has no letter, digit or underscore
    next to it; a dot next to it does not count) is migrated to itself,
    and a run on a file that holds it ends with status 0 and leaves
    every file, this one too, with its content. *)
Theorem no_occurrence_unchanged (s prog p : text) (more : list text)
    (w : world) :
  (forall tok i, In tok targets -> ~ standalone_at tok s i) ->
  fs w p = Some (File true true s) ->
  migrate s = s /\
  fst (run (prog :: p :: more) w) = 0%N /\
  forall q, fs (snd (run (prog :: p :: more) w)) q = fs w q.
Proof.
  intros No F. pose proof (migrate_no_occurrence s No) as E.
  unfold run. rewrite (main_success prog p more w s F), E.
  cbn [fst snd fs exit_status]. repeat split. intros q.
  destruct (list_eq_dec N.eq_dec q p) as [->|D].
  - now rewrite set_content_same.
  - now rewrite !set_content_other.
Qed.

(** C7: when nothing exists at the path given, the run ends with
    status 1, has printed [File <path> not found], has only asked
    whether the path exists, and has left the file system as it was. *)
Theorem missing_file (prog p : text) (more : list text) (w : world) :
  fs w p = None ->
  run (prog :: p :: more) w
  = (1%N,
     World (fs w) (stdout w ++ [str "File " ++ p ++ str " not found"])
           (calls w ++ [Exists p])).
Proof. intros H. unfold run. now rewrite main_not_found. Qed.

(** C8: without a path argument the run ends with status 1, has printed
    the usage line, and has made no call on the file system, which is
    as it was. *)
Theorem no_argument (argv : list text) (w : world) :
  length argv < 2 ->
  run argv w = (1%N, World (fs w) (stdout w ++ [usage]) (calls w)).
Proof. intros H. unfold run. now rewrite main_usage. Qed.

(** C9, as the script has it: a path at which nothing exists is reported
    with [File <path> not found] and status 1 before any file is opened;
    a path that exists but cannot be read as a file passes the check,
    and the run ends in the exception of the [open] for reading, with
    nothing printed and nothing written. *)
Theorem unreadable_path (prog p : text) (more : list text) (w : world) :
  readable_file (fs w p) = false ->
  (fs w p = None /\
   main (prog :: p :: more) w
   = (inr (SystemExit 1),
      World (fs w) (stdout w ++ [str "File " ++ p ++ str " not found"])
            (calls w ++ [Exists p])))
  \/
  (fs w p <> None /\
   exists e,
     main (prog :: p :: more) w
     = (inr (Raised e),
        World (fs w) (stdout w) (calls w ++ [Exists p; OpenRead p])) /\
     exit_status (inr (Raised e)) = 1%N).
Proof.
  intros H. destruct (fs w p) as [[|[|] wr c]|] eqn:F; simpl in H.
  - right. split; [discriminate|]. exists IsADirectoryError.
    rewrite (main_is_directory prog p more w F), <- app_assoc. now split.
  - discriminate.
  - right. split; [discriminate|]. exists PermissionError.
    rewrite (main_no_permission prog p more w wr c F), <- app_assoc.
    now split.
  - left. split; [reflexivity|]. now apply main_not_found.
Qed.

(** C10: every run that ends with status 0 has opened the file of its
    path argument for writing and written the migrated text to it,
    whether or not the migration changed the text. *)
Theorem success_rewrites_file (argv : list text) (w : world) :
  fst (run argv w) = 0%N ->
  exists p c,
    nth_error argv 1 = Some p /\
    fs w p = Some (File true true c) /\
    fs (snd (run argv w)) p = Some (File true true (migrate c)) /\
    calls (snd (run argv w))
    = calls w ++ [Exists p; OpenRead p; Read p; OpenWrite p;
                  Write p (migrate c)] /\
    stdout (snd (run argv w)) = stdout w ++ [str "Processed " ++ p].
Proof.
  unfold run. destruct argv as [|prog [|p more]].
  - rewrite main_usage by (simpl; lia). discriminate.
  - rewrite main_usage by (simpl; lia). discriminate.
  - destruct (fs w p) as [[|[|] [|] c]|] eqn:F.
    + rewrite (main_is_directory prog p more w F). discriminate.
    + rewrite (main_success prog p more w c F). intros _.
      exists p, c. cbn [snd fs calls stdout nth_error].
      rewrite set_content_same, <- !app_assoc. now repeat split.
    + rewrite (main_read_only prog p more w c F). discriminate.
    + rewrite (main_no_permission prog p more w _ c F). discriminate.
    + rewrite (main_no_permission prog p more w _ c F). discriminate.
    + rewrite (main_not_found prog p more w F). discriminate.
Qed.

(** ** A pass around a text it cannot touch *)

Lemma prefixb_skip t a b :
  prefixb t (a ++ b) = true -> length a <= length t ->
  prefixb (skipn (length a) t) b = true.
Proof.
  revert t. induction a as [|x a IH]; intros t H L; [assumption|].
  destruct t as [|y t]; simpl in L; [lia|]. simpl in H.
  apply andb_true_iff in H. destruct H as [_ H]. apply IH; [assumption | lia].
Qed.

Lemma prefixb_within t a b :
  prefixb t (a ++ b) = true -> length t <= length a ->
  a = t ++ skipn (length t) a.
Proof.
  revert a. induction t as [|y t IH]; intros a H L; [reflexivity|].
  destruct a as [|x a]; simpl in L; [lia|]. simpl in H.
  apply andb_true_iff in H. destruct H as [E H]. apply N.eqb_eq in E.
  subst x. cbn [length skipn app]. f_equal. apply IH; [assumption | lia].
Qed.

Lemma inside_blocked t m prev rest j :
  apart t false 1 m = true -> 1 <= j < length m ->
  hit t (after prev (firstn j m)) (skipn j m ++ rest) = false.
Proof.
  intros A Hj. rewrite (after_nonempty prev false).
  - now apply apart_blocks with (from := 1).
  - destruct j, m; simpl in *; try lia; discriminate.
Qed.

Section Around.

Variables t m : text.
Hypothesis t_target : In t targets.
Hypothesis m_free : overlap_free t m = true.

Lemma no_straddle pre rest :
  pre <> [] -> prefixb t (pre ++ m ++ rest) = true -> length t <= length pre.
Proof.
  intros NE P. destruct (le_lt_dec (length t) (length pre)) as [|L];
    [assumption|exfalso].
  apply prefixb_skip in P; [|lia]. apply compat_prefix in P.
  unfold overlap_free in m_free. rewrite forallb_forall in m_free.
  assert (I : In (length pre) (seq 1 (length t - 1))).
  { apply in_seq. destruct pre; [congruence | simpl in *; lia]. }
  apply m_free in I. rewrite P in I. discriminate.
Qed.

(** The pass works on what stands before [m] without looking further
    than the first character of [m]. *)
Lemma pass_split rest :
  forall (pre : text) prev,
  exists pre',
    pass t logger_Info prev (pre ++ m ++ rest)
    = pre' ++ pass t logger_Info (after prev pre) (m ++ rest) /\
    after prev pre' = after prev pre.
Proof.
  pose proof (target_wordy _ t_target) as W. intros pre.
  induction pre as [pre IH] using text_len_ind. intros prev.
  destruct pre as [|c r]; [now exists []|].
  destruct (hit t prev ((c :: r) ++ m ++ rest)) eqn:M.
  - destruct (hit_split _ _ _ M) as (-> & _ & _).
    pose proof (hit_prefix _ _ _ M) as P.
    pose proof (no_straddle (c :: r) rest ltac:(discriminate) P) as L.
    pose proof (prefixb_within _ _ _ P L) as E.
    set (pre2 := skipn (length t) (c :: r)) in *.
    rewrite pass_hit by assumption. rewrite E, <- app_assoc, skipn_exact.
    destruct (IH pre2) with (prev := true) as (q & Eq & A).
    + rewrite E, length_app. apply wordy_nonempty in W.
      destruct t; [congruence | simpl; lia].
    + exists (logger_Info ++ q). split.
      * now rewrite Eq, <- app_assoc, after_app, (wordy_after _ _ W).
      * rewrite !after_app, (wordy_after _ _ W).
        now rewrite (wordy_after _ _ repl_wordy), A.
  - cbn [app] in *. rewrite pass_miss by assumption.
    destruct (IH r) with (prev := is_word c) as (q & Eq & A).
    + simpl. lia.
    + exists (c :: q). split; [now rewrite Eq|]. now rewrite !after_cons.
Qed.

End Around.

Lemma middle_overlap_free t m :
  In t targets -> In m (logger_Info :: targets) -> overlap_free t m = true.
Proof.
  intros H [<-|Hm]; [|each_target Hm]; each_target H; vm_compute;
    reflexivity.
Qed.

Lemma pass_over_quiet t m prev post :
  In t targets -> In m targets ->
  hit t prev (m ++ post) = false ->
  pass t logger_Info prev (m ++ post) = m ++ pass t logger_Info true post.
Proof.
  intros H Hm Q. rewrite pass_keeps.
  - now rewrite (wordy_after _ prev (target_wordy _ Hm)).
  - now apply target_wordy.
  - intros [|j] Hj; [exact Q|].
    apply inside_blocked; [now apply target_apart | lia].
Qed.

(** One pass around an occurrence [m] that is no match of any target. *)
Lemma pass_step_quiet t m pre post :
  In t targets -> In m targets ->
  quiet (last_word pre) (m ++ post) ->
  exists pre',
    pass t logger_Info false (pre ++ m ++ post)
    = pre' ++ m ++ pass t logger_Info true post /\
    last_word pre' = last_word pre /\
    quiet (last_word pre') (m ++ pass t logger_Info true post).
Proof.
  intros H Hm Q.
  destruct (pass_split t m H (middle_overlap_free t m H (or_intror Hm))
                       post pre false) as (q & Eq & A).
  fold (last_word pre) in Eq, A. fold (last_word q) in A.
  pose proof (pass_over_quiet t m (last_word pre) post H Hm (Q t H)) as K.
  exists q. split; [now rewrite Eq, K | split; [exact A|]].
  intros t' H'. rewrite A, <- K.
  destruct (hit t' (last_word pre) (pass t logger_Info (last_word pre)
                                         (m ++ post))) eqn:M; [|reflexivity].
  apply rule_no_new_hit in M; auto. now rewrite (Q t' H') in M.
Qed.

Lemma migrate_around m pre post :
  In m targets ->
  quiet (last_word pre) (m ++ post) ->
  exists pre',
    migrate (pre ++ m ++ post) = pre' ++ m ++ migrate_from true post /\
    last_word pre' = last_word pre.
Proof.
  intros Hm Q. rewrite migrate_passes. unfold migrate_from.
  fold (pass log_Printf logger_Info true post).
  destruct (pass_step_quiet log_Printf m pre post in_Printf Hm Q)
    as (p1 & -> & A1 & Q1).
  set (post1 := pass log_Printf logger_Info true post) in *.
  fold (pass log_Println logger_Info true post1).
  destruct (pass_step_quiet log_Println m p1 post1 in_Println Hm Q1)
    as (p2 & -> & A2 & Q2).
  set (post2 := pass log_Println logger_Info true post1) in *.
  fold (pass log_Print logger_Info true post2).
  destruct (pass_step_quiet log_Print m p2 post2 in_Print Hm Q2)
    as (p3 & -> & A3 & _).
  exists p3. split; [reflexivity | congruence].
Qed.

(** One pass around the replacement. *)
Lemma pass_step_repl t pre post :
  In t targets ->
  exists pre',
    pass t logger_Info false (pre ++ logger_Info ++ post)
    = pre' ++ logger_Info ++ pass t logger_Info true post /\
    last_word pre' = last_word pre.
Proof.
  intros H.
  destruct (pass_split t logger_Info H
              (middle_overlap_free t _ H (or_introl eq_refl))
              post pre false) as (q & Eq & A).
  exists q. split; [|exact A]. now rewrite Eq, rule_over_repl.
Qed.

(** The pass of a target around a standalone occurrence of it. *)
Lemma pass_step_own tok pre post :
  In tok targets -> last_word pre = false -> head_word post = false ->
  exists pre',
    pass tok logger_Info false (pre ++ tok ++ post)
    = pre' ++ logger_Info ++ pass tok logger_Info true post /\
    last_word pre' = false.
Proof.
  intros H Lp Hp.
  destruct (pass_split tok tok H (middle_overlap_free tok tok H (or_intror H))
                       post pre false) as (q & Eq & A).
  fold (last_word pre) in Eq, A. fold (last_word q) in A. rewrite Lp in *.
  exists q. split; [|exact A]. rewrite Eq.
  rewrite pass_hit by (now apply target_wordy || now apply hit_intro).
  now rewrite skipn_exact.
Qed.

(** The pass of another target around a standalone occurrence. *)
Lemma pass_step_other t tok pre post :
  In t targets -> In tok targets -> t <> tok ->
  last_word pre = false -> head_word post = false ->
  exists pre',
    pass t logger_Info false (pre ++ tok ++ post)
    = pre' ++ tok ++ pass t logger_Info true post /\
    last_word pre' = false /\
    head_word (pass t logger_Info true post) = false.
Proof.
  intros H Ht D Lp Hp.
  destruct (pass_split t tok H (middle_overlap_free t tok H (or_intror Ht))
                       post pre false) as (q & Eq & A).
  fold (last_word pre) in Eq, A. fold (last_word q) in A. rewrite Lp in *.
  exists q. split; [|split; [exact A|]].
  - rewrite Eq, (rule_over_hit t tok false (tok ++ post)); auto.
    + now rewrite skipn_exact.
    + now apply hit_intro.
  - rewrite pass_head; auto using target_wordy, repl_wordy.
Qed.

(** Every standalone occurrence of a target is replaced. *)
Lemma migrate_replaces tok pre post :
  In tok targets -> last_word pre = false -> head_word post = false ->
  exists pre',
    migrate (pre ++ tok ++ post)
    = pre' ++ logger_Info ++ migrate_from true post /\
    last_word pre' = false.
Proof.
  intros H Lp Hp. rewrite migrate_passes. unfold migrate_from.
  fold (pass log_Printf logger_Info true post).
  remember (pass log_Printf logger_Info true post) as post1 eqn:E1.
  fold (pass log_Println logger_Info true post1).
  remember (pass log_Println logger_Info true post1) as post2 eqn:E2.
  fold (pass log_Print logger_Info true post2).
  apply in_targets in H. destruct H as [-> | [-> | ->]].
  - destruct (pass_step_own log_Printf pre post in_Printf Lp Hp)
      as (p1 & -> & A1). rewrite <- E1.
    destruct (pass_step_repl log_Println p1 post1 in_Println)
      as (p2 & -> & A2). rewrite <- E2.
    destruct (pass_step_repl log_Print p2 post2 in_Print)
      as (p3 & -> & A3).
    exists p3. split; [now subst post1 post2 | congruence].
  - destruct (pass_step_other log_Printf log_Println pre post
                in_Printf in_Println ltac:(discriminate) Lp Hp)
      as (p1 & -> & A1 & H1). rewrite <- E1 in *.
    destruct (pass_step_own log_Println p1 post1 in_Println A1 H1)
      as (p2 & -> & A2). rewrite <- E2.
    destruct (pass_step_repl log_Print p2 post2 in_Print)
      as (p3 & -> & A3).
    exists p3. split; [now subst post1 post2 | congruence].
  - destruct (pass_step_other log_Printf log_Print pre post
                in_Printf in_Print ltac:(discriminate) Lp Hp)
      as (p1 & -> & A1 & H1). rewrite <- E1 in *.
    destruct (pass_step_other log_Println log_Print p1 post1
                in_Println in_Print ltac:(discriminate) A1 H1)
      as (p2 & -> & A2 & H2). rewrite <- E2 in *.
    destruct (pass_step_own log_Print p2 post2 in_Print A2 H2)
      as (p3 & -> & A3).
    exists p3. split; [now subst post1 post2 | assumption].
Qed.

(** ** Occurrences next to word characters, and next to dots *)

Lemma standalone_here tok pre s :
  standalone_at tok (pre ++ s) (length pre) ->
  hit tok (last_word pre) s = true.
Proof.
  intros (pre' & post' & E & L & Lp & Hp).
  destruct (app_same_length _ _ _ _ E (eq_sym L)) as [<- ->].
  rewrite Lp. now apply hit_intro.
Qed.

Lemma standalone_check tok s i :
  standalone_at tok s i ->
  i <= length s /\ hit tok (last_word (firstn i s)) (skipn i s) = true.
Proof.
  intros (pre & post & -> & <- & Lp & Hp).
  rewrite firstn_exact, skipn_exact, Lp, length_app.
  split; [lia | now apply hit_intro].
Qed.

Lemma embedded_hit tok pre post :
  last_word pre = true \/ head_word post = true ->
  hit tok (last_word pre) (tok ++ post) = false.
Proof.
  intros [H | H]; unfold hit.
  - now rewrite H.
  - now rewrite skipn_exact, H, andb_false_r.
Qed.

(** A target other than [log.Print] is the start of no other target. *)
Lemma longer_target_quiet t tok prev post :
  In t targets -> In tok targets -> t <> tok -> tok <> log_Print ->
  hit t prev (tok ++ post) = false.
Proof.
  intros H Ht D NP. each_target H; each_target Ht; try congruence.
  - apply hit_blocked. now destruct prev.
  - apply hit_blocked. now destruct prev.
  - apply (hit_longer log_Print [102%N] prev post). reflexivity.
  - apply (hit_longer log_Print [108%N; 110%N] prev post). reflexivity.
Qed.

(** With a word character next to it, and outside the one exception, an
    occurrence is the start of no match. *)
Lemma embedded_quiet tok pre post :
  In tok targets ->
  last_word pre = true \/
  (head_word post = true /\
   (tok = log_Print ->
    ~ standalone_at log_Printf (pre ++ tok ++ post) (length pre) /\
    ~ standalone_at log_Println (pre ++ tok ++ post) (length pre))) ->
  quiet (last_word pre) (tok ++ post).
Proof.
  intros H E t Ht.
  assert (Own : hit tok (last_word pre) (tok ++ post) = false)
    by (apply embedded_hit; tauto).
  destruct E as [E | [_ E]]; [unfold hit; now rewrite E|].
  destruct (list_eq_dec N.eq_dec t tok) as [->|D]; [assumption|].
  destruct (list_eq_dec N.eq_dec tok log_Print) as [P|NP];
    [|now apply longer_target_quiet].
  destruct (E P) as [NF NL].
  destruct (hit t (last_word pre) (tok ++ post)) eqn:M; [|reflexivity].
  apply hit_standalone in M. subst tok.
  each_target Ht; congruence || contradiction.
Qed.

(** C2, as the script has it: an occurrence of a target right behind a
    letter, a digit or an underscore, or right before one, is found
    unchanged in the migrated text, in front of the migration of what
    follows it, unless it is [log.Print] at the start of a standalone
    [log.Printf] or [log.Println], which is replaced as that longer
    token.  Only occurrences with no such character next to them are
    replaced, and those are: a dot next to the occurrence, as in
    [log.Print.Foo], does not keep it. *)
Theorem embedded_occurrence_kept (pre tok post : text) :
  In tok targets ->
  (last_word pre = true \/
   (head_word post = true /\
    (tok = log_Print ->
     ~ standalone_at log_Printf (pre ++ tok ++ post) (length pre) /\
     ~ standalone_at log_Println (pre ++ tok ++ post) (length pre))) ->
   ~ standalone_at tok (pre ++ tok ++ post) (length pre) /\
   exists pre',
     migrate (pre ++ tok ++ post) = pre' ++ tok ++ migrate_from true post /\
     last_word pre' = last_word pre) /\
  (last_word pre = false -> head_word post = false ->
   standalone_at tok (pre ++ tok ++ post) (length pre) /\
   exists pre',
     migrate (pre ++ tok ++ post)
     = pre' ++ logger_Info ++ migrate_from true post /\
     last_word pre' = false) /\
  (forall x y, last_word (x ++ str ".") = false /\
               head_word (str "." ++ y) = false).
Proof.
  intros H. split; [|split].
  - intros E. split.
    + intros S. apply standalone_here in S.
      rewrite embedded_hit in S by tauto. discriminate.
    + apply migrate_around; [assumption|]. now apply embedded_quiet.
  - intros Lp Hp. split; [now exists pre, post|].
    now apply migrate_replaces.
  - intros x y. split; [|reflexivity].
    unfold last_word. now rewrite after_app.
Qed.

(** C3, as the script has it: an occurrence right behind or right before
    a letter, a digit or an underscore is no match of its pattern and is
    found unchanged in the migrated text, unless it is [log.Print] at
    the start of a standalone [log.Printf] or [log.Println]; an
    occurrence with no such neighbour is a match and is replaced by the
    migration, and a dot is no such neighbour. *)
Theorem word_neighbour_blocks_match (pre tok post : text) :
  In tok targets ->
  (last_word pre = true \/ head_word post = true ->
   match_here (word_pat tok) (last_word pre) (tok ++ post) = None /\
   ~ standalone_at tok (pre ++ tok ++ post) (length pre) /\
   (last_word pre = true \/ tok <> log_Print \/
    (~ standalone_at log_Printf (pre ++ tok ++ post) (length pre) /\
     ~ standalone_at log_Println (pre ++ tok ++ post) (length pre)) ->
    exists pre',
      migrate (pre ++ tok ++ post) = pre' ++ tok ++ migrate_from true post))
  /\
  (last_word pre = false -> head_word post = false ->
   match_here (word_pat tok) (last_word pre) (tok ++ post)
   = Some (length tok) /\
   standalone_at tok (pre ++ tok ++ post) (length pre) /\
   exists pre',
     migrate (pre ++ tok ++ post)
     = pre' ++ logger_Info ++ migrate_from true post) /\
  (forall x, last_word (x ++ str ".") = false) /\
  (forall y, head_word (str "." ++ y) = false).
Proof.
  intros H. pose proof (target_wordy _ H) as W.
  split; [|split; [|split]].
  - intros E. pose proof (embedded_hit tok pre post E) as Q.
    split; [|split].
    + rewrite match_word_pat by assumption. now rewrite Q.
    + intros S. apply standalone_here in S. congruence.
    + intros X.
      destruct (migrate_around tok pre post H) as (q & Eq & _);
        [|now exists q].
      apply embedded_quiet; [assumption|].
      destruct E as [E | E]; [now left|].
      destruct X as [X | [X | X]]; [now left | right | right];
        (split; [assumption|]); intros P; [contradiction | assumption].
  - intros Lp Hp. split; [|split].
    + rewrite match_word_pat by assumption. rewrite Lp.
      now rewrite hit_intro.
    + now exists pre, post.
    + destruct (migrate_replaces tok pre post H Lp Hp) as (q & Eq & _).
      now exists q.
  - intros x. unfold last_word. now rewrite after_app.
  - reflexivity.
Qed.

(** ** Checking a concrete text *)

Lemma standalone_positions_spec tok s i :
  standalone_at tok s i -> In i (standalone_positions tok s).
Proof.
  intros S. apply standalone_check in S. destruct S as [L M].
  apply filter_In. split; [apply in_seq; lia | assumption].
Qed.

Lemma none_standalone s :
  forallb (fun t => match standalone_positions t s with
                    | [] => true
                    | _ => false
                    end) targets = true ->
  forall tok i, In tok targets -> ~ standalone_at tok s i.
Proof.
  intros C tok i H S. rewrite forallb_forall in C. apply C in H.
  apply standalone_positions_spec in S.
  destruct (standalone_positions tok s); [contradiction | discriminate].
Qed.

Lemma sole_standalone s k :
  forallb (fun t => forallb (Nat.eqb k) (standalone_positions t s)) targets
  = true ->
  forall tok i, In tok targets -> standalone_at tok s i -> i = k.
Proof.
  intros C tok i H S. rewrite forallb_forall in C. apply C in H.
  rewrite forallb_forall in H. apply standalone_positions_spec in S.
  apply H in S. apply Nat.eqb_eq in S. congruence.
Qed.

(** * Further properties of the migration *)

(** ** What a pass leaves behind *)

Lemma hit_nil t prev : wordy t = true -> hit t prev [] = false.
Proof.
  intros W. unfold hit. destruct t; [discriminate|].
  cbn [prefixb]. now rewrite andb_false_r.
Qed.

Lemma hits_free_tail t tok prev s :
  wordy tok = true -> hits_free t prev s -> s = tok ++ skipn (length tok) s ->
  hits_free t true (skipn (length tok) s).
Proof.
  intros W F E pre s' E'. rewrite <- (wordy_after tok prev W), <- after_app.
  apply F. now rewrite <- app_assoc, <- E'.
Qed.

Lemma hits_free_cons t prev c r :
  hits_free t prev (c :: r) -> hits_free t (is_word c) r.
Proof. intros F pre s' ->. now apply (F (c :: pre) s'). Qed.

(** After the pass of [t] no match of [t] is left, and a target without
    a match before the pass has none behind it. *)
Lemma pass_hits_free t t' :
  In t targets -> In t' targets ->
  forall s prev,
  t' = t \/ hits_free t' prev s ->
  hits_free t' prev (pass t logger_Info prev s).
Proof.
  intros H H'. pose proof (target_wordy _ H) as W.
  pose proof (target_wordy _ H') as W'.
  induction s as [s IH] using text_len_ind. intros prev Hyp pre s' E.
  destruct s as [|c r].
  { rewrite pass_nil in E by assumption. symmetry in E.
    apply app_eq_nil in E. destruct E as [-> ->]. now apply hit_nil. }
  destruct (hit t prev (c :: r)) eqn:M.
  - rewrite pass_hit in E by assumption.
    destruct (hit_split _ _ _ M) as (_ & Es & _).
    apply app_eq_app in E. destruct E as (l & [[E1 E2] | [E1 E2]]).
    + destruct l as [|x l].
      * rewrite app_nil_r in E1. subst pre.
        rewrite (wordy_after _ prev repl_wordy). reflexivity.
      * subst s'.
        generalize (pass t logger_Info true (skipn (length t) (c :: r))).
        intros z.
        pose proof (apart_blocks t' prev 0 logger_Info z
                      (length pre) (repl_apart t' prev H')) as B.
        rewrite E1, firstn_exact, skipn_exact in B. apply B.
        rewrite length_app. simpl. lia.
    + subst pre. rewrite after_app, (wordy_after _ prev repl_wordy).
      apply (IH (skipn (length t) (c :: r))) with (prev := true).
      * apply skipn_shorter; [now apply wordy_nonempty | assumption].
      * destruct Hyp as [-> | F]; [now left | right].
        now apply hits_free_tail with (prev := prev).
      * assumption.
  - rewrite pass_miss in E by assumption. destruct pre as [|x pre].
    + cbn [app after fold_left] in *. subst s'.
      rewrite <- (pass_miss t logger_Info W prev c r M).
      destruct (hit t' prev (pass t logger_Info prev (c :: r))) eqn:N;
        [|reflexivity].
      apply rule_no_new_hit in N; auto.
      destruct Hyp as [-> | F]; [congruence|].
      pose proof (F [] (c :: r) eq_refl) as F0.
      cbn [after fold_left] in F0. congruence.
    + injection E as <- E. rewrite after_cons.
      apply (IH r) with (prev := is_word c).
      * simpl. lia.
      * destruct Hyp as [-> | F]; [now left | right].
        now apply hits_free_cons with (prev := prev).
      * assumption.
Qed.

Lemma migrate_hits_free t s :
  In t targets -> hits_free t false (migrate s).
Proof.
  intros H. rewrite migrate_passes.
  apply pass_hits_free; auto with targets.
  destruct (list_eq_dec N.eq_dec t log_Print) as [E|D1]; [now left | right].
  apply pass_hits_free; auto with targets.
  destruct (list_eq_dec N.eq_dec t log_Println) as [E|D2]; [now left | right].
  apply pass_hits_free; auto with targets.
  left. each_target H; congruence.
Qed.

Lemma hits_free_standalone t s :
  hits_free t false s -> forall i, ~ standalone_at t s i.
Proof.
  intros F i S. apply standalone_check in S. destruct S as [_ M].
  unfold last_word in M.
  rewrite (F (firstn i s) (skipn i s)) in M; [discriminate|].
  now rewrite firstn_skipn.
Qed.

Lemma migrate_twice s : migrate (migrate s) = migrate s.
Proof.
  apply migrate_no_occurrence. intros tok i H.
  now apply hits_free_standalone, migrate_hits_free.
Qed.

(** X1: the migrated text contains no standalone occurrence of any of
    the three targets: every one of them has been replaced. *)
Theorem migrate_leaves_no_target (s tok : text) (i : nat) :
  In tok targets -> ~ standalone_at tok (migrate s) i.
Proof.
  intros H. now apply hits_free_standalone, migrate_hits_free.
Qed.

(** X2: the migration returns its input exactly when the input contains
    no standalone occurrence of a target. *)
Theorem migrate_fixed_iff (s : text) :
  migrate s = s <->
  (forall tok i, In tok targets -> ~ standalone_at tok s i).
Proof.
  split.
  - intros E tok i H. rewrite <- E.
    now apply hits_free_standalone, migrate_hits_free.
  - apply migrate_no_occurrence.
Qed.

(** ** Texts on the two sides of a separator *)

Lemma hit_cons y t prev x s :
  hit (y :: t) prev (x :: s) = negb prev && (y =? x)%N && hit t false s.
Proof.
  unfold hit. cbn [prefixb length skipn negb andb].
  now destruct prev, (y =? x)%N, (prefixb t s).
Qed.

(** A non-word character no target contains cuts the text for the
    matching: a match neither reaches it nor sees a difference between
    it and the end of the text. *)
Lemma hit_separator t prev a c b :
  ~ In c t -> is_word c = false ->
  hit t prev (a ++ c :: b) = hit t prev a.
Proof.
  intros NI Wc. revert prev a. induction t as [|y t IH]; intros prev a.
  - unfold hit. cbn [prefixb length skipn]. destruct a; simpl; now rewrite ?Wc.
  - destruct a as [|x a].
    + cbn [app]. rewrite hit_cons. unfold hit at 2. cbn [prefixb].
      destruct (N.eqb_spec y c) as [->|]; [|now rewrite !andb_false_r].
      exfalso. apply NI. now left.
    + cbn [app]. rewrite !hit_cons. f_equal. apply IH.
      intros I. apply NI. now right.
Qed.

Lemma target_chars t c :
  In t targets -> In c t -> is_word c = true \/ c = 46%N.
Proof.
  intros H I. each_target H; simpl in I;
    repeat (destruct I as [<- | I]; [auto|]); contradiction.
Qed.

Lemma separator_not_in_target t c :
  In t targets -> is_word c = false -> c <> 46%N -> ~ In c t.
Proof.
  intros H Wc D I. destruct (target_chars t c H I); congruence.
Qed.

Lemma pass_separator t c b :
  In t targets -> is_word c = false -> c <> 46%N ->
  forall (a : text) prev,
  pass t logger_Info prev (a ++ c :: b)
  = pass t logger_Info prev a ++ c :: pass t logger_Info false b.
Proof.
  intros H Wc D. pose proof (target_wordy _ H) as W.
  pose proof (separator_not_in_target t c H Wc D) as NI.
  intros a. induction a as [a IH] using text_len_ind. intros prev.
  pose proof (hit_separator t prev a c b NI Wc) as S.
  destruct a as [|x a].
  - cbn [app] in *. rewrite hit_nil in S by assumption.
    rewrite pass_miss, pass_nil by assumption. now rewrite Wc.
  - destruct (hit t prev (x :: a)) eqn:M.
    + destruct (hit_split _ _ _ M) as (_ & E & _).
      rewrite (pass_hit t logger_Info W prev _ S).
      rewrite (pass_hit t logger_Info W prev _ M), <- app_assoc. f_equal.
      rewrite E at 1. rewrite <- app_assoc, skipn_exact.
      apply IH, skipn_shorter; [now apply wordy_nonempty | assumption].
    + cbn [app] in *. rewrite !pass_miss by assumption.
      cbn [app]. f_equal. apply IH. simpl. lia.
Qed.

(** X3: a non-word character other than the dot (a newline, a blank, a
    bracket) separates the text for the migration: the text before it
    and the text behind it are migrated on their own. *)
Theorem migrate_separator (a b : text) (c : N) :
  is_word c = false -> c <> 46%N ->
  migrate (a ++ c :: b) = migrate a ++ c :: migrate b.
Proof.
  intros Wc D. rewrite !migrate_passes.
  now rewrite !pass_separator by auto with targets.
Qed.

(** * Further properties of the runs *)

(** X7: a file that can be read but not written is read, the [open] for
    writing fails with [PermissionError], and the run ends with status 1
    without a line printed and with the file as it was. *)
Theorem read_only_file (prog p : text) (more : list text) (w : world)
    (c : text) :
  fs w p = Some (File true false c) ->
  main (prog :: p :: more) w
  = (inr (Raised PermissionError),
     World (fs w) (stdout w)
           (calls w ++ [Exists p; OpenRead p; Read p; OpenWrite p])) /\
  fst (run (prog :: p :: more) w) = 1%N.
Proof.
  intros F. unfold run. rewrite (main_read_only prog p more w c F).
  now rewrite <- !app_assoc.
Qed.

(** X8: a run depends on [sys.argv] through its second entry only: the
    name of the script and any further arguments are ignored. *)
Theorem only_first_argument_counts (prog prog' p : text)
    (more more' : list text) (w : world) :
  run (prog :: p :: more) w = run (prog' :: p :: more') w.
Proof. reflexivity. Qed.

(** X9: running the script a second time on a file it has migrated ends
    with status 0 again and leaves every file as the first run left
    it. *)
Theorem second_run_changes_nothing (prog p : text) (more : list text)
    (w : world) (c : text) :
  fs w p = Some (File true true c) ->
  let w1 := snd (run (prog :: p :: more) w) in
  fst (run (prog :: p :: more) w1) = 0%N /\
  forall q, fs (snd (run (prog :: p :: more) w1)) q = fs w1 q.
Proof.
  intros F w1.
  assert (F1 : fs w1 p = Some (File true true (migrate c))).
  { unfold w1, run. rewrite (main_success prog p more w c F).
    cbn [snd fs]. apply set_content_same. }
  unfold run. rewrite (main_success prog p more w1 _ F1).
  cbn [fst snd fs exit_status]. split; [reflexivity|]. intros q.
  rewrite migrate_twice. destruct (list_eq_dec N.eq_dec q p) as [->|D].
  - now rewrite set_content_same.
  - now rewrite !set_content_other.
Qed.

(** ** Whole tokens of the glossary *)

Lemma whole_token_positions_spec tok s i :
  whole_token_at tok s i -> In i (whole_token_positions tok s).
Proof.
  intros (pre & post & -> & <- & Lp & Hp). apply filter_In. split.
  - apply in_seq. rewrite length_app. lia.
  - now rewrite firstn_exact, !skipn_exact, prefixb_app, Lp, Hp.
Qed.

Lemma no_whole_token s :
  forallb (fun t => match whole_token_positions t s with
                    | [] => true
                    | _ => false
                    end) targets = true ->
  forall tok i, In tok targets -> ~ whole_token_at tok s i.
Proof.
  intros C tok i H S. rewrite forallb_forall in C. apply C in H.
  apply whole_token_positions_spec in S.
  destruct (whole_token_positions tok s); [contradiction | discriminate].
Qed.

Lemma sole_whole_token s k :
  forallb (fun t => forallb (Nat.eqb k) (whole_token_positions t s)) targets
  = true ->
  forall tok i, In tok targets -> whole_token_at tok s i -> i = k.
Proof.
  intros C tok i H S. rewrite forallb_forall in C. apply C in H.
  rewrite forallb_forall in H. apply whole_token_positions_spec in S.
  apply H in S. apply Nat.eqb_eq in S. congruence.
Qed.

End Migration.

(** * The model on concrete inputs *)

(** The end-to-end text of the specification. *)
Example migrate_three_calls :
  migrate latin1_alnum
    (str "log.Printf(x)" ++ [10%N] ++ str "log.Println(done)" ++ [10%N]
       ++ str "log.Print(y)")
  = str "logger.Info(x)" ++ [10%N] ++ str "logger.Info(done)" ++ [10%N]
       ++ str "logger.Info(y)".
Proof. vm_compute. reflexivity. Qed.

(** A letter beyond ASCII is a word character as well. *)
Example migrate_after_accent :
  migrate latin1_alnum ([233%N] ++ str "log.Print(y)")
  = [233%N] ++ str "log.Print(y)".
Proof. vm_compute. reflexivity. Qed.

Lemma migrate_single_occurrence_witness :
  In log_Println targets /\
  last_word latin1_alnum (str "if err { ") = false /\
  head_word latin1_alnum (str "(err) }") = false /\
  (forall tok' i, In tok' targets ->
     standalone_at latin1_alnum tok'
       (str "if err { " ++ log_Println ++ str "(err) }") i ->
     i = length (str "if err { ")) /\
  migrate latin1_alnum (str "if err { " ++ log_Println ++ str "(err) }")
  = str "if err { " ++ logger_Info ++ str "(err) }".
Proof.
  assert (I : In log_Println targets) by (simpl; auto).
  assert (U : forall tok' i, In tok' targets ->
            standalone_at latin1_alnum tok'
              (str "if err { " ++ log_Println ++ str "(err) }") i ->
            i = length (str "if err { "))
    by (apply sole_standalone; vm_compute; reflexivity).
  split; [exact I|]. split; [reflexivity|]. split; [reflexivity|].
  split; [exact U|].
  apply (migrate_single_occurrence latin1_alnum (str "if err { ")
           log_Println (str "(err) }") I eq_refl eq_refl U).
Defined.

Lemma no_occurrence_unchanged_witness :
  migrate latin1_alnum (str "fmt.Println(x) // mylog.Printf2")
  = str "fmt.Println(x) // mylog.Printf2" /\
  fst (run latin1_alnum [script; str "plain.go"] sample_world) = 0%N /\
  forall q,
    fs (snd (run latin1_alnum [script; str "plain.go"] sample_world)) q
    = fs sample_world q.
Proof.
  apply (no_occurrence_unchanged latin1_alnum
           (str "fmt.Println(x) // mylog.Printf2") script (str "plain.go")
           [] sample_world).
  - apply none_standalone. vm_compute. reflexivity.
  - reflexivity.
Defined.

Lemma missing_file_witness :
  fs sample_world (str "/no/such/file.go") = None /\
  run latin1_alnum [script; str "/no/such/file.go"] sample_world
  = (1%N,
     World sample_fs [str "File /no/such/file.go not found"]
           [Exists (str "/no/such/file.go")]).
Proof.
  split; [reflexivity|].
  apply (missing_file latin1_alnum script (str "/no/such/file.go") []
           sample_world eq_refl).
Defined.

Lemma no_argument_witness :
  length [script] < 2 /\
  run latin1_alnum [script] sample_world
  = (1%N, World sample_fs [usage] []).
Proof.
  split; [simpl; lia|].
  apply (no_argument latin1_alnum [script] sample_world). simpl. lia.
Defined.

Lemma unreadable_path_witness :
  readable_file (fs sample_world (str "pkg")) = false /\
  exists e,
    main latin1_alnum [script; str "pkg"] sample_world
    = (inr (Raised e),
       World sample_fs [] [Exists (str "pkg"); OpenRead (str "pkg")]).
Proof.
  split; [reflexivity|].
  destruct (unreadable_path latin1_alnum script (str "pkg") [] sample_world
              eq_refl) as [[F _] | [_ (e & E & _)]].
  - discriminate F.
  - exists e. exact E.
Defined.

Lemma success_rewrites_file_witness :
  fst (run latin1_alnum [script; str "plain.go"] sample_world) = 0%N /\
  exists p c,
    nth_error [script; str "plain.go"] 1 = Some p /\
    fs sample_world p = Some (File true true c) /\
    In (Write p (migrate latin1_alnum c))
       (calls (snd (run latin1_alnum [script; str "plain.go"]
                        sample_world))).
Proof.
  assert (S : fst (run latin1_alnum [script; str "plain.go"] sample_world)
              = 0%N) by (vm_compute; reflexivity).
  split; [exact S|].
  destruct (success_rewrites_file latin1_alnum [script; str "plain.go"]
              sample_world S) as (p & c & A & F & _ & C & _).
  exists p, c. repeat split; try assumption.
  rewrite C. apply in_or_app. right. simpl. tauto.
Defined.

Lemma embedded_occurrence_kept_witness :
  In log_Printf targets /\
  last_word latin1_alnum (str "big") = true /\
  exists pre',
    migrate latin1_alnum (str "big" ++ log_Printf ++ str "(y)")
    = pre' ++ log_Printf ++ migrate_from latin1_alnum true (str "(y)").
Proof.
  assert (I : In log_Printf targets) by (simpl; auto).
  split; [exact I | split; [reflexivity|]].
  destruct (embedded_occurrence_kept latin1_alnum (str "big") log_Printf
              (str "(y)") I) as (A & _).
  destruct (A (or_introl eq_refl)) as (_ & q & E & _).
  exists q. exact E.
Defined.

Lemma word_neighbour_blocks_match_witness :
  In log_Printf targets /\
  match_here latin1_alnum (word_pat log_Printf)
    (last_word latin1_alnum (str "my")) (log_Printf ++ str "2(z)") = None.
Proof.
  assert (I : In log_Printf targets) by (simpl; auto).
  split; [exact I|].
  destruct (word_neighbour_blocks_match latin1_alnum (str "my") log_Printf
              (str "2(z)") I) as (A & _).
  destruct (A (or_introl eq_refl)) as (M & _). exact M.
Defined.

(** ** Where the code differs from the claims *)

(** Against C1 as stated: in [log.Print(a); x.log.Printf(y)] only the
    first target is a whole token of the glossary, the second one stands
    behind a dot; the migration replaces both, so that more than the one
    place changes. *)
Lemma one_whole_token_two_replaced :
  whole_token_at latin1_alnum log_Print
    ([] ++ log_Print ++ str "(a); x.log.Printf(y)") 0 /\
  (forall tok i, In tok targets ->
     whole_token_at latin1_alnum tok
       ([] ++ log_Print ++ str "(a); x.log.Printf(y)") i -> i = 0) /\
  migrate latin1_alnum ([] ++ log_Print ++ str "(a); x.log.Printf(y)")
  = str "logger.Info(a); x.logger.Info(y)" /\
  migrate latin1_alnum ([] ++ log_Print ++ str "(a); x.log.Printf(y)")
  <> [] ++ logger_Info ++ str "(a); x.log.Printf(y)".
Proof.
  split; [|split; [|split]].
  - exists [], (str "(a); x.log.Printf(y)"). now repeat split.
  - apply sole_whole_token. vm_compute. reflexivity.
  - vm_compute. reflexivity.
  - vm_compute. discriminate.
Qed.

(** Against C2 as stated: [log.Print] inside the longer identifier
    [log.Printf] does not survive the migration: the standalone
    [log.Printf] it begins is replaced, and the result does not contain
    [log.Print] any more.  Nor does [log.Print] inside the longer dotted
    identifier [log.Print.Foo]: a dot behind it does not keep it. *)
Lemma log_Print_inside_log_Printf_replaced :
  In log_Print targets /\
  head_word latin1_alnum (str "f(x)") = true /\
  migrate latin1_alnum ([] ++ log_Print ++ str "f(x)")
  = str "logger.Info(x)" /\
  occurs log_Print (str "logger.Info(x)") = false /\
  head_ident latin1_alnum (str ".Foo(y)") = true /\
  migrate latin1_alnum ([] ++ log_Print ++ str ".Foo(y)")
  = str "logger.Info.Foo(y)" /\
  occurs log_Print (str "logger.Info.Foo(y)") = false.
Proof. repeat split; simpl; auto. Qed.

(** Against C3 as stated: in [x.log.Printf(y)] the occurrence is
    preceded by a dot, an identifier character of the glossary; the
    pattern matches it all the same and the migration replaces it.  And
    [log.Print] followed by the letters of [log.Println] is replaced
    with that longer token. *)
Lemma dotted_occurrence_replaced :
  last_ident latin1_alnum (str "x.") = true /\
  match_here latin1_alnum (word_pat log_Printf)
    (last_word latin1_alnum (str "x.")) (log_Printf ++ str "(y)")
  = Some 10 /\
  migrate latin1_alnum (str "x." ++ log_Printf ++ str "(y)")
  = str "x.logger.Info(y)" /\
  head_ident latin1_alnum (str "ln(z)") = true /\
  migrate latin1_alnum ([] ++ log_Print ++ str "ln(z)")
  = str "logger.Info(z)".
Proof. repeat split; vm_compute; reflexivity. Qed.

(** Against C6 as stated: [x.log.Printf(y)] contains no whole token of
    the glossary among the three targets, its one occurrence standing
    behind a dot; the migration changes it all the same. *)
Lemma no_whole_token_yet_changed :
  (forall tok i, In tok targets ->
     ~ whole_token_at latin1_alnum tok (str "x.log.Printf(y)") i) /\
  migrate latin1_alnum (str "x.log.Printf(y)") = str "x.logger.Info(y)" /\
  migrate latin1_alnum (str "x.log.Printf(y)") <> str "x.log.Printf(y)".
Proof.
  split; [|split].
  - apply no_whole_token. vm_compute. reflexivity.
  - vm_compute. reflexivity.
  - vm_compute. discriminate.
Qed.

(** Against C9 as stated: a directory is a path that exists and cannot
    be read as a file; the script does not report it as not found: it
    prints nothing, tries to open it and ends in [IsADirectoryError]. *)
Lemma directory_not_reported_missing :
  readable_file (fs sample_world (str "pkg")) = false /\
  main latin1_alnum [script; str "pkg"] sample_world
  = (inr (Raised IsADirectoryError),
     World sample_fs [] [Exists (str "pkg"); OpenRead (str "pkg")]).
Proof. split; reflexivity. Qed.

(** ** The further properties on concrete inputs *)

Lemma migrate_leaves_no_target_witness :
  In log_Print targets /\
  ~ standalone_at latin1_alnum log_Print
      (migrate latin1_alnum (str "log.Printf(x) log.Print(y)")) 14.
Proof.
  assert (I : In log_Print targets) by (simpl; auto).
  split; [exact I|].
  apply (migrate_leaves_no_target latin1_alnum
           (str "log.Printf(x) log.Print(y)") log_Print 14 I).
Defined.

Lemma migrate_separator_witness :
  is_word latin1_alnum 10 = false /\ 10%N <> 46%N /\
  migrate latin1_alnum (str "log.Printf(x)" ++ 10%N :: str "log.Print(y)")
  = migrate latin1_alnum (str "log.Printf(x)")
      ++ 10%N :: migrate latin1_alnum (str "log.Print(y)").
Proof.
  assert (D : 10%N <> 46%N) by discriminate.
  split; [reflexivity|]. split; [exact D|].
  apply (migrate_separator latin1_alnum (str "log.Printf(x)")
           (str "log.Print(y)") 10 eq_refl D).
Defined.

Lemma read_only_file_witness :
  fs locked_world (str "vendor.go")
  = Some (File true false (str "log.Print(x)")) /\
  fst (run latin1_alnum [script; str "vendor.go"] locked_world) = 1%N.
Proof.
  split; [reflexivity|].
  destruct (read_only_file latin1_alnum script (str "vendor.go") []
              locked_world (str "log.Print(x)") eq_refl) as [_ S].
  exact S.
Defined.

Lemma second_run_changes_nothing_witness :
  fs sample_world (str "main.go")
  = Some (File true true
            (str "log.Printf(x); biglog.Printf(y); log.PrintfExtra(z)")) /\
  fst (run latin1_alnum [script; str "main.go"]
         (snd (run latin1_alnum [script; str "main.go"] sample_world)))
  = 0%N.
Proof.
  split; [reflexivity|].
  destruct (second_run_changes_nothing latin1_alnum script (str "main.go")
              [] sample_world _ eq_refl) as [S _].
  exact S.
Defined.
